(** * FoodDetails: the order-composition screen of the restaurant app

    A shallow embedding of [src/pages/FoodDetails/index.tsx].  The component
    keeps four [useState] cells ([food], [extras], [isFavorite],
    [foodQuantity]); its handlers are functions of the values captured at the
    last render and they answer with calls to the state setters.  The
    embedding keeps that shape: a handler returns the list of setter calls it
    makes, an [async] handler is split at its [await], and the component is
    the state machine that commits those calls.

    Numbers.  A TypeScript [number] that holds a count ([id], [quantity],
    [foodQuantity], an array index) is a [Z]; one that holds money ([value],
    [price], the total) is a binary64 [float], and the sums and products of
    the total are the rounded operations of binary64.  A count enters that
    arithmetic through [number_of_Z]. *)

From Stdlib Require Import ZArith Lia Floats.
From stdpp Require Import base option list strings pretty gmap.

Local Open Scope Z_scope.

(** ** JavaScript numbers *)

(** The binary64 number that holds an integer (the nearest one, which is the
    integer itself up to 2^53). *)
Definition number_of_Z (z : Z) : float :=
  SF2Prim (binary_normalize prec emax z 0 false).

(** [ToNumber]: [undefined] becomes [NaN]. *)
Definition to_number (o : option float) : float :=
  match o with
  | Some x => x
  | None => nan
  end.

(** ** JavaScript arrays *)

Section js_array.
Context {A : Type}.

Fixpoint findIndex_from (p : A → bool) (l : list A) (i : Z) : Z :=
  match l with
  | [] => -1
  | x :: l' => if p x then i else findIndex_from p l' (i + 1)
  end.

(** [arr.findIndex(p)]: the first index whose element satisfies [p], or -1. *)
Definition findIndex (p : A → bool) (l : list A) : Z := findIndex_from p l 0.

(** [arr[i]]: [undefined] outside of [0 .. length - 1]. *)
Definition at_index (l : list A) (i : Z) : option A :=
  if i <? 0 then None else l !! Z.to_nat i.

(** How [slice] reads one of its bounds against an array of length [len]. *)
Definition relative_index (len i : Z) : Z :=
  if i <? 0 then Z.max (len + i) 0 else Z.min i len.

(** [arr.slice(start, end)]. *)
Definition slice (start stop : Z) (l : list A) : list A :=
  let len := Z.of_nat (length l) in
  let k := relative_index len start in
  let final := relative_index len stop in
  take (Z.to_nat (final - k)) (drop (Z.to_nat k) l).
End js_array.

(** ** Exceptions *)

Inductive JsError := TypeError.

Inductive Result (A : Type) :=
| Ok (a : A)
| Throw (e : JsError).
Arguments Ok {A} a.
Arguments Throw {A} e.

#[global] Instance Result_ret : MRet Result := λ A, Ok.
#[global] Instance Result_bind : MBind Result := λ A B f m,
  match m with
  | Ok a => f a
  | Throw e => Throw e
  end.

(** Reading a property of [undefined] raises a [TypeError]. *)
Definition defined {A} (o : option A) : Result A :=
  match o with
  | Some a => Ok a
  | None => Throw TypeError
  end.

(** ** Data model *)

Module Extra.
Record t := mk { id : Z; name : string; value : float; quantity : Z }.

(** [{ ...e, quantity: q }] *)
Definition with_quantity (q : Z) (e : t) : t :=
  {| id := id e; name := name e; value := value e; quantity := q |}.
End Extra.

Module Food.
Record t := mk {
  id : Z;
  name : string;
  description : string;
  price : float;
  image_url : string;
  formattedPrice : string;
  extras : list Extra.t
}.

(** [{ ...f, formattedPrice: s }] *)
Definition with_formattedPrice (s : string) (f : t) : t :=
  {| id := id f; name := name f; description := description f;
     price := price f; image_url := image_url f; formattedPrice := s;
     extras := extras f |}.
End Food.

(** [item => item.id === id] *)
Definition has_id (id : Z) (item : Extra.t) : bool := Extra.id item =? id.

(** A JavaScript object as a finite map from its keys; the values that occur
    in this component's objects. *)
Inductive Field :=
| FNumber (n : float)
| FString (s : string)
| FExtras (l : list Extra.t).

(** The own properties of a value of interface [Food]. *)
Definition food_object (f : Food.t) : gmap string Field :=
  <["id" := FNumber (number_of_Z (Food.id f))]>
  (<["name" := FString (Food.name f)]>
  (<["description" := FString (Food.description f)]>
  (<["price" := FNumber (Food.price f)]>
  (<["image_url" := FString (Food.image_url f)]>
  (<["formattedPrice" := FString (Food.formattedPrice f)]>
  (<["extras" := FExtras (Food.extras f)]> ∅)))))).

(** The four state cells.  [food] starts as [{} as Food], an object with no
    property at all: [None]. *)
Record State := mkState {
  food : option Food.t;
  extras : list Extra.t;
  isFavorite : bool;
  foodQuantity : Z
}.

(** [useState({} as Food)], [useState([])], [useState(false)], [useState(1)] *)
Definition initial : State :=
  {| food := None; extras := []; isFavorite := false; foodQuantity := 1 |}.

(** The object held by the [food] cell. *)
Definition food_cell_object (o : option Food.t) : gmap string Field :=
  match o with
  | Some f => food_object f
  | None => ∅
  end.

(** ** Setter calls *)

(** A call to one of the four setters.  [setExtras], [setIsFavorite] and
    [setFoodQuantity] take an updater that React applies to the latest value
    of the cell; an updater of [setExtras] can throw. *)
Inductive Update :=
| setFood (f : Food.t)
| setExtras (u : list Extra.t → Result (list Extra.t))
| setIsFavorite (u : bool → bool)
| setFoodQuantity (u : Z → Z).

Definition apply_update (u : Update) (st : State) : Result State :=
  match u with
  | setFood f =>
      Ok {| food := Some f; extras := extras st;
            isFavorite := isFavorite st; foodQuantity := foodQuantity st |}
  | setExtras g =>
      new ← g (extras st);
      Ok {| food := food st; extras := new;
            isFavorite := isFavorite st; foodQuantity := foodQuantity st |}
  | setIsFavorite g =>
      Ok {| food := food st; extras := extras st;
            isFavorite := g (isFavorite st); foodQuantity := foodQuantity st |}
  | setFoodQuantity g =>
      Ok {| food := food st; extras := extras st;
            isFavorite := isFavorite st; foodQuantity := g (foodQuantity st) |}
  end.

(** The calls of one handler, applied in the order in which they were made. *)
Fixpoint commit (us : list Update) (st : State) : Result State :=
  match us with
  | [] => Ok st
  | u :: us' => st' ← apply_update u st; commit us' st'
  end.

(** ** Requests to the API *)

Inductive Request :=
| GET_food (id : Z)
| GET_favorites
| DELETE_favorite (id : option Z)
| POST_favorites (body : gmap string Field)
| POST_orders (body : gmap string Field).

(** An [async] function with one [await] inside a [try]: the setter calls
    made before the [await], the request awaited, and the setter calls made
    once the request has settled ([None]: the promise was rejected and the
    [catch] block ran). *)
Record Async (R : Type) := mkAsync {
  before : list Update;
  request : Request;
  settled : option R → list Update
}.
Arguments mkAsync {R} _ _ _.
Arguments before {R} _.
Arguments request {R} _.
Arguments settled {R} _ _.

(** The state while the request is in flight, and once it has settled. *)
Definition start {R} (a : Async R) (st : State) : Result State :=
  commit (before a) st.
Definition finish {R} (a : Async R) (r : option R) (st : State) : Result State :=
  commit (settled a r) st.

(** ** The component *)

Section FoodDetails.
(** [utils/formatValue], the money formatter, is imported by the component;
    nothing is assumed of it. *)
Variable formatValue : float → string.

(** The effect on [routeParams]: fetch the food, give every extra the
    quantity 0, store the food with its formatted price, store the
    extras.  Nothing is set when the request is rejected. *)
Definition loadFood (id : Z) : Async Food.t :=
  {| before := [];
     request := GET_food id;
     settled := λ foodResponse,
       match foodResponse with
       | Some foodFromApi =>
           let foodExtas :=
             map (Extra.with_quantity 0) (Food.extras foodFromApi) in
           [ setFood (Food.with_formattedPrice
                        (formatValue (Food.price foodFromApi))
                        foodFromApi);
             setExtras (λ _, Ok foodExtas) ]
       | None => []
       end |}.

(** [item.id === food.id]; [food.id] is [undefined] on the empty object. *)
Definition same_id (food : option Food.t) (item : Food.t) : bool :=
  match food with
  | Some f => Food.id item =? Food.id f
  | None => false
  end.

(** The effect on [food]. *)
Definition checkFavorite (food : option Food.t) : Async (list Food.t) :=
  {| before := [];
     request := GET_favorites;
     settled := λ favoriteResponse,
       match favoriteResponse with
       | Some data =>
           let favoriteArr := filter (λ item, same_id food item = true) data in
           [ setIsFavorite (λ _, 0 <? Z.of_nat (length favoriteArr)) ]
       | None => []
       end |}.

Definition handleIncrementExtra (extras : list Extra.t) (id : Z) : list Update :=
  let extraIndex := findIndex (has_id id) extras in
  [ setExtras (λ oldState,
      old ← defined (at_index oldState extraIndex);
      let increasedQuantity := Extra.quantity old + 1 in
      let newExtra := Extra.with_quantity increasedQuantity old in
      Ok (slice 0 extraIndex oldState
            ++ [newExtra]
            ++ slice (extraIndex + 1) (Z.of_nat (length oldState)) oldState)) ].

Definition handleDecrementExtra (extras : list Extra.t) (id : Z)
  : Result (list Update) :=
  let extraIndex := findIndex (has_id id) extras in
  current ← defined (at_index extras extraIndex);
  if Extra.quantity current >? 0 then
    Ok [ setExtras (λ oldState,
           old ← defined (at_index oldState extraIndex);
           let increasedQuantity := Extra.quantity old - 1 in
           let newExtra := Extra.with_quantity increasedQuantity old in
           Ok (slice 0 extraIndex oldState
                 ++ [newExtra]
                 ++ slice (extraIndex + 1) (Z.of_nat (length oldState)) oldState)) ]
  else Ok [].

Definition handleIncrementFood : list Update :=
  [ setFoodQuantity (λ oldState, oldState + 1) ].

Definition handleDecrementFood (foodQuantity : Z) : list Update :=
  if foodQuantity >? 1 then [ setFoodQuantity (λ oldState, oldState - 1) ]
  else [].

(** The write is awaited inside the [try]; the flag is set after it. *)
Definition toggleFavorite (isFavorite : bool) (food : option Food.t) : Async () :=
  {| before := [];
     request :=
       if isFavorite then DELETE_favorite (Food.id <$> food)
       else POST_favorites (food_cell_object food);
     settled := λ r,
       match r with
       | Some _ => [ setIsFavorite (λ oldState, negb oldState) ]
       | None => []
       end |}.

(** The number under [cartTotal], before it is formatted.  [food.price] is
    [undefined] on the empty object. *)
Definition cartTotal_number (food : option Food.t) (extras : list Extra.t)
    (foodQuantity : Z) : float :=
  let extraTotal :=
    fold_left (λ cumulator extraItem,
                 (cumulator
                  + number_of_Z (Extra.quantity extraItem)
                    * Extra.value extraItem)%float)
              extras 0%float in
  let foodTotal :=
    (to_number (Food.price <$> food) * number_of_Z foodQuantity)%float in
  (extraTotal + foodTotal)%float.

Definition cartTotal (food : option Food.t) (extras : list Extra.t)
    (foodQuantity : Z) : string :=
  formatValue (cartTotal_number food extras foodQuantity).

(** [{ ...food, extras }] *)
Definition order_body (food : option Food.t) (extras : list Extra.t)
  : gmap string Field :=
  <["extras" := FExtras extras]> (food_cell_object food).

Definition handleFinishOrder (food : option Food.t) (extras : list Extra.t)
  : Async () :=
  {| before := [];
     request := POST_orders (order_body food extras);
     settled := λ _, [] |}.

(** *** The state machine *)

(** What happens to the component: a button is pressed, or an effect or an
    [async] handler runs and its request settles with [r].  None of the
    [async] functions calls a setter before its [await], so the state moves
    only when the request settles.  The closure of [checkFavorite] keeps the
    [food] of the render whose effect sent the request, [captured]; the cell
    may hold another food by the time the request settles. *)
Inductive Event :=
| LoadFood (id : Z) (r : option Food.t)
| CheckFavorite (captured : option Food.t) (r : option (list Food.t))
| IncrementExtra (id : Z)
| DecrementExtra (id : Z)
| IncrementFood
| DecrementFood
| ToggleFavorite (r : option ())
| FinishOrder (r : option ()).

Definition whole {R} (a : Async R) (r : option R) : list Update :=
  before a ++ settled a r.

(** The setter calls of an event; a button handler sees the state of the
    render that precedes the press. *)
Definition dispatch (ev : Event) (st : State) : Result (list Update) :=
  match ev with
  | LoadFood id r => Ok (whole (loadFood id) r)
  | CheckFavorite captured r => Ok (whole (checkFavorite captured) r)
  | IncrementExtra id => Ok (handleIncrementExtra (extras st) id)
  | DecrementExtra id => handleDecrementExtra (extras st) id
  | IncrementFood => Ok handleIncrementFood
  | DecrementFood => Ok (handleDecrementFood (foodQuantity st))
  | ToggleFavorite r => Ok (whole (toggleFavorite (isFavorite st) (food st)) r)
  | FinishOrder r => Ok (whole (handleFinishOrder (food st) (extras st)) r)
  end.

Definition step (ev : Event) (st : State) : Result State :=
  us ← dispatch ev st; commit us st.

Fixpoint run (evs : list Event) (st : State) : Result State :=
  match evs with
  | [] => Ok st
  | ev :: evs' => st' ← step ev st; run evs' st'
  end.

(** The states in which a handled event leaves the component.  An event
    [CheckFavorite captured r] is admitted with any [captured]: these are
    more runs than the component has, which is what an invariant needs. *)
Inductive reachable : State → Prop :=
| reachable_initial : reachable initial
| reachable_step ev st st' :
    reachable st → step ev st = Ok st' → reachable st'.

(** The states that the screen renders.  A setter call made after an
    [await] is followed by a render of its own, so the component is also
    seen in the states that lie between the setter calls of one event. *)
Inductive on_screen : State → Prop :=
| on_screen_after ev st done rest st' :
    reachable st → dispatch ev st = Ok (done ++ rest) →
    commit done st = Ok st' → on_screen st'.


(** *** Rendering: object identity and [useMemo] *)

(** [cartTotal] is wrapped in [useMemo] with the dependencies
    [[extras, food, foodQuantity]].  React compares dependencies with
    [Object.is]: two arrays or objects by identity, two numbers by value.
    Every array that [setExtras] stores and every object that [setFood]
    stores is built anew by the handler, so each store gives the cell a
    fresh identity. *)
Record Deps := mkDeps {
  dep_extras : nat;
  dep_food : nat;
  dep_foodQuantity : Z
}.

Definition same_deps (a b : Deps) : bool :=
  (dep_extras a =? dep_extras b)%nat
  && (dep_food a =? dep_food b)%nat
  && (dep_foodQuantity a =? dep_foodQuantity b).

Record Runtime := mkRuntime {
  cells : State;
  extras_ref : nat;
  food_ref : nat;
  fresh : nat;
  memo : option (Deps * string);
  shown : string
}.

Definition deps_of (rt : Runtime) : Deps :=
  {| dep_extras := extras_ref rt; dep_food := food_ref rt;
     dep_foodQuantity := foodQuantity (cells rt) |}.

(** [useMemo(compute, deps)] against the cell left by the previous render. *)
Definition useMemo (compute : () → string) (deps : Deps)
    (cell : option (Deps * string)) : string * option (Deps * string) :=
  match cell with
  | Some (d, v) =>
      if same_deps d deps then (v, cell)
      else let v' := compute () in (v', Some (deps, v'))
  | None => let v' := compute () in (v', Some (deps, v'))
  end.

(** One render: the text under [testID="cart-total"]. *)
Definition render (rt : Runtime) : Runtime :=
  let st := cells rt in
  let '(v, cell) :=
    useMemo (λ _, cartTotal (food st) (extras st) (foodQuantity st))
            (deps_of rt) (memo rt) in
  {| cells := st; extras_ref := extras_ref rt; food_ref := food_ref rt;
     fresh := fresh rt; memo := cell; shown := v |}.

Definition rt_apply_update (u : Update) (rt : Runtime) : Result Runtime :=
  st' ← apply_update u (cells rt);
  Ok match u with
     | setFood _ =>
         {| cells := st'; extras_ref := extras_ref rt; food_ref := fresh rt;
            fresh := S (fresh rt); memo := memo rt; shown := shown rt |}
     | setExtras _ =>
         {| cells := st'; extras_ref := fresh rt; food_ref := food_ref rt;
            fresh := S (fresh rt); memo := memo rt; shown := shown rt |}
     | _ =>
         {| cells := st'; extras_ref := extras_ref rt; food_ref := food_ref rt;
            fresh := fresh rt; memo := memo rt; shown := shown rt |}
     end.

(** Every setter call is followed by a render. *)
Fixpoint rt_commit (us : list Update) (rt : Runtime) : Result Runtime :=
  match us with
  | [] => Ok rt
  | u :: us' => rt' ← rt_apply_update u rt; rt_commit us' (render rt')
  end.

Definition rt_step (ev : Event) (rt : Runtime) : Result Runtime :=
  us ← dispatch ev (cells rt); rt_commit us rt.

(** The first render. *)
Definition mount : Runtime :=
  render {| cells := initial; extras_ref := 0; food_ref := 1; fresh := 2;
            memo := None; shown := "" |}.

Inductive rt_reachable : Runtime → Prop :=
| rt_reachable_mount : rt_reachable mount
| rt_reachable_step ev rt rt' :
    rt_reachable rt → rt_step ev rt = Ok rt' → rt_reachable rt'.


(** What a render leaves behind: the memo cell holds the dependencies and
    the text of this render, the text is [cartTotal] of the cells, and the
    identities in use are older than the next fresh one. *)
Definition rendered (rt : Runtime) : Prop :=
  memo rt = Some (deps_of rt, shown rt)
  ∧ shown rt
    = cartTotal (food (cells rt)) (extras (cells rt)) (foodQuantity (cells rt))
  ∧ (extras_ref rt < fresh rt)%nat
  ∧ (food_ref rt < fresh rt)%nat.

End FoodDetails.

(** ** The formulas of the specification *)

(** The formulas are read in the arithmetic of the code: [×] and [+] are
    the products and sums of binary64, each one rounded. *)




(** The quantity the ledger holds for an id: that of the first extra with
    this id, the one [findIndex] selects. *)
Definition quantity_of (id : Z) (extras : list Extra.t) : option Z :=
  Extra.quantity <$> at_index extras (findIndex (has_id id) extras).

(** A sequence of presses on the two buttons of one extra. *)
Inductive Press := Inc | Dec.

#[global] Instance Press_eq_dec : EqDecision Press.
Proof. solve_decision. Defined.

Definition press_event (id : Z) (p : Press) : Event :=
  match p with
  | Inc => IncrementExtra id
  | Dec => DecrementExtra id
  end.

Definition increments (ps : list Press) : Z :=
  Z.of_nat (length (filter (λ p, p = Inc) ps)).
Definition decrements (ps : list Press) : Z :=
  Z.of_nat (length (filter (λ p, p = Dec) ps)).

(** Number of increments less number of decrements. *)
Definition net (ps : list Press) : Z := increments ps - decrements ps.

(** The count that stops at zero: +1 on an increment, -1 on a decrement
    unless it is already 0. *)
Definition floored_count (q : Z) (ps : list Press) : Z :=
  fold_left (λ q p, match p with Inc => q + 1 | Dec => Z.max 0 (q - 1) end) ps q.

(** The least value of [net] over the prefixes of [ps], the empty one
    included. *)
Fixpoint lowest (ps : list Press) : Z :=
  match ps with
  | [] => 0
  | p :: ps' => Z.min 0 (net [p] + lowest ps')
  end.

(** ** Sample data *)

(** A formatter to run the component with: the number as the dyadic
    fraction it is, mantissa and exponent in text. *)
Definition fraction_text (n : float) : string :=
  match Prim2SF n with
  | S754_zero s => if s then "-0" else "0"
  | S754_infinity s => if s then "-Infinity" else "Infinity"
  | S754_nan => "NaN"
  | S754_finite s m e =>
      (if s then "-" else "") +:+ pretty (Zpos m) +:+ "*2^" +:+ pretty e
  end.

Definition bacon : Extra.t :=
  {| Extra.id := 11; Extra.name := "Bacon"; Extra.value := 2%float;
     Extra.quantity := 0 |}.

Definition burger : Food.t :=
  {| Food.id := 1; Food.name := "Burger"; Food.description := "Beef and cheese";
     Food.price := 10%float; Food.image_url := "burger.png";
     Food.formattedPrice := ""; Food.extras := [bacon] |}.

(** The state once [burger] has been loaded into a fresh screen. *)
Definition burger_loaded : State :=
  {| food := Some (Food.with_formattedPrice (fraction_text 10%float) burger);
     extras := [bacon]; isFavorite := false; foodQuantity := 1 |}.

(** A second extra, and a food that offers both; the state once this food
    has been loaded and the plus icon of the cheese pressed twice. *)
Definition cheese : Extra.t :=
  {| Extra.id := 12; Extra.name := "Cheese"; Extra.value := 1.5%float;
     Extra.quantity := 2 |}.

Definition cheeseburger : Food.t :=
  {| Food.id := 2; Food.name := "Cheeseburger";
     Food.description := "Beef and more cheese";
     Food.price := 12%float; Food.image_url := "cheeseburger.png";
     Food.formattedPrice := "";
     Food.extras := [bacon; Extra.with_quantity 0 cheese] |}.

Definition cheeseburger_ordered : State :=
  {| food := Some (Food.with_formattedPrice (fraction_text 12%float)
                     cheeseburger);
     extras := [bacon; cheese]; isFavorite := false; foodQuantity := 1 |}.

(** A food whose price and extra are not binary64 numbers in decimal: 0.1
    and 0.2, each the nearest binary64 number. *)
Definition mint : Extra.t :=
  {| Extra.id := 21; Extra.name := "Mint"; Extra.value := 0x1.999999999999ap-3%float;
     Extra.quantity := 1 |}.

Definition lemonade : Food.t :=
  {| Food.id := 3; Food.name := "Lemonade"; Food.description := "Fresh";
     Food.price := 0x1.999999999999ap-4%float; Food.image_url := "lemonade.png";
     Food.formattedPrice := ""; Food.extras := [mint] |}.

(** The scenario of the specification: three presses on the increment button
    of extra 11 and one on the increment button of the food. *)
Definition scenario : list Event :=
  [ LoadFood 1 (Some burger); IncrementExtra 11; IncrementExtra 11;
    IncrementExtra 11; IncrementFood ].

(** ** What the screen offers *)

(** The [onPress] handlers of the rendered tree that run at once: for every
    extra of the ledger a minus and a plus icon bound to the id of that
    extra, then the minus and the plus icon of the food. *)
Definition buttons (st : State) : list Event :=
  (extras st ≫= λ extra,
     [DecrementExtra (Extra.id extra); IncrementExtra (Extra.id extra)])
  ++ [DecrementFood; IncrementFood].

(** The quantity that the extra handlers store for an extra of quantity [q]:
    [q + 1] on the plus icon; on the minus icon [q - 1] when [q > 0], and
    nothing is stored otherwise. *)
Definition after_press (p : Press) (q : Z) : Z :=
  match p with
  | Inc => q + 1
  | Dec => if q >? 0 then q - 1 else q
  end.

(** The ledger lists the extras of the food in the [food] cell, in their
    order and with their names and values, each with a quantity that is
    not negative; it is empty while the cell holds the empty object. *)
Definition ledger_of (food : option Food.t) (ledger : list Extra.t) : Prop :=
  match food with
  | Some f =>
      map Extra.id ledger = map Extra.id (Food.extras f)
      ∧ map Extra.name ledger = map Extra.name (Food.extras f)
      ∧ map Extra.value ledger = map Extra.value (Food.extras f)
  | None => ledger = []
  end
  ∧ Forall (λ e, 0 ≤ Extra.quantity e) ledger.

(** * Properties *)

(** ** JavaScript arrays *)

Section js_array_facts.
Context {A : Type}.
Implicit Types (p : A → bool) (l : list A).

Lemma findIndex_from_none p l i :
  Forall (λ x, p x = false) l → findIndex_from p l i = -1.
Proof.
  intros H. revert i. induction H as [|x l Hx _ IH]; intros i; simpl.
  - reflexivity.
  - rewrite Hx. apply IH.
Qed.

Lemma findIndex_from_found p l i n x :
  l !! n = Some x → p x = true →
  (∀ m y, (m < n)%nat → l !! m = Some y → p y = false) →
  findIndex_from p l i = i + Z.of_nat n.
Proof.
  revert i n. induction l as [|a l IH]; intros i n Hn Hx Hfirst.
  - discriminate.
  - destruct n as [|n]; simpl in *.
    + injection Hn as ->. rewrite Hx. lia.
    + rewrite (Hfirst 0%nat a) by (reflexivity || lia).
      rewrite (IH (i + 1) n); [lia | assumption | assumption |].
      intros m y Hm Hy. apply (Hfirst (S m) y); [lia | exact Hy].
Qed.

(** [findIndex] answers -1 when no element qualifies, and otherwise the
    index of the first element that does. *)
Lemma findIndex_spec p l :
  (findIndex p l = -1 ∧ Forall (λ x, p x = false) l)
  ∨ (∃ n x, findIndex p l = Z.of_nat n ∧ l !! n = Some x ∧ p x = true
            ∧ ∀ m y, (m < n)%nat → l !! m = Some y → p y = false).
Proof.
  unfold findIndex. induction l as [|a l IH].
  - left. split; [reflexivity | constructor].
  - destruct (p a) eqn:Ha.
    + right. exists 0%nat, a. simpl. rewrite Ha.
      repeat split; try reflexivity. intros m y Hm. lia.
    + destruct IH as [[Hnone Hall] | (n & x & Hidx & Hn & Hx & Hfirst)].
      * left. split; [| constructor; assumption].
        apply findIndex_from_none. constructor; assumption.
      * right. exists (S n), x. repeat split; try assumption.
        -- rewrite (findIndex_from_found p (a :: l) 0 (S n) x); try assumption.
           ++ lia.
           ++ intros [|m] y Hm Hy; simpl in Hy.
              ** congruence.
              ** apply (Hfirst m y); [lia | exact Hy].
        -- intros [|m] y Hm Hy; simpl in Hy.
           ++ congruence.
           ++ apply (Hfirst m y); [lia | exact Hy].
Qed.

(** [findIndex] only looks at the verdicts of the predicate. *)
Lemma findIndex_from_verdicts p l l' i :
  map p l = map p l' → findIndex_from p l i = findIndex_from p l' i.
Proof.
  revert l' i. induction l as [|a l IH]; intros [|a' l'] i H; simpl in *;
    try discriminate; [reflexivity|].
  injection H as Ha Hl. rewrite Ha. destruct (p a'); [reflexivity|].
  apply IH, Hl.
Qed.

Lemma at_index_of_nat l n : at_index l (Z.of_nat n) = l !! n.
Proof.
  unfold at_index. destruct (Z.ltb_spec (Z.of_nat n) 0); [lia|].
  by rewrite Nat2Z.id.
Qed.

Lemma at_index_negative l i : i < 0 → at_index l i = None.
Proof. intros H. unfold at_index. by destruct (Z.ltb_spec i 0); [|lia]. Qed.

Lemma slice_prefix l n :
  (n ≤ length l)%nat → slice 0 (Z.of_nat n) l = take n l.
Proof.
  intros H. unfold slice, relative_index.
  change (0 <? 0) with false. cbv iota.
  destruct (Z.ltb_spec (Z.of_nat n) 0); [lia|].
  rewrite (Z.min_l 0), (Z.min_l (Z.of_nat n)) by lia.
  rewrite Z.sub_0_r, Nat2Z.id. reflexivity.
Qed.

Lemma slice_suffix l n :
  (n ≤ length l)%nat → slice (Z.of_nat n) (Z.of_nat (length l)) l = drop n l.
Proof.
  intros H. unfold slice, relative_index.
  destruct (Z.ltb_spec (Z.of_nat n) 0); [lia|].
  destruct (Z.ltb_spec (Z.of_nat (length l)) 0); [lia|].
  rewrite !Z.min_l by lia. rewrite Nat2Z.id.
  apply take_ge. rewrite length_drop. lia.
Qed.

(** The array that both extra handlers build, [[...slice(0, i), x,
    ...slice(i + 1, length)]], is the array with the element at [i]
    replaced. *)
Lemma splice_is_insert l n x :
  (n < length l)%nat →
  slice 0 (Z.of_nat n) l
    ++ x :: slice (Z.of_nat n + 1) (Z.of_nat (length l)) l
  = <[n := x]> l.
Proof.
  intros H. rewrite slice_prefix by lia.
  replace (Z.of_nat n + 1) with (Z.of_nat (S n)) by lia.
  rewrite slice_suffix by lia. symmetry. by apply insert_take_drop.
Qed.
End js_array_facts.

(** ** The extras ledger *)

Lemma quantity_of_present id (l : list Extra.t) q :
  quantity_of id l = Some q →
  ∃ n e, findIndex (has_id id) l = Z.of_nat n ∧ l !! n = Some e
         ∧ Extra.id e = id ∧ Extra.quantity e = q.
Proof.
  unfold quantity_of. intros H.
  destruct (findIndex_spec (has_id id) l)
    as [[Hnone _] | (n & e & Hidx & Hn & He & _)].
  - rewrite Hnone, at_index_negative in H by lia. discriminate.
  - exists n, e. rewrite Hidx, at_index_of_nat, Hn in H.
    injection H as <-. apply Z.eqb_eq in He. auto.
Qed.

Lemma findIndex_absent id (l : list Extra.t) :
  Forall (λ e, Extra.id e ≠ id) l → findIndex (has_id id) l = -1.
Proof.
  intros H. apply findIndex_from_none.
  eapply Forall_impl; [exact H|]. intros e He. by apply Z.eqb_neq.
Qed.

(** Replacing the quantity of the selected extra does not move the index
    that [findIndex] answers for any id. *)
Lemma findIndex_with_quantity id (l : list Extra.t) n e q :
  l !! n = Some e →
  findIndex (has_id id) (<[n := Extra.with_quantity q e]> l)
  = findIndex (has_id id) l.
Proof.
  intros Hn. apply findIndex_from_verdicts.
  rewrite list_fmap_insert. simpl. apply list_insert_id.
  by rewrite list_lookup_fmap, Hn.
Qed.

(** It changes no field but the quantity. *)
Lemma map_insert_with_quantity {B} (g : Extra.t → B) (l : list Extra.t) n e q :
  (∀ x, g (Extra.with_quantity q x) = g x) → l !! n = Some e →
  map g (<[n := Extra.with_quantity q e]> l) = map g l.
Proof.
  intros Hg Hn. rewrite list_fmap_insert, Hg.
  apply list_insert_id. by rewrite list_lookup_fmap, Hn.
Qed.

Lemma quantity_of_with_quantity id (l : list Extra.t) n e q :
  findIndex (has_id id) l = Z.of_nat n → l !! n = Some e →
  quantity_of id (<[n := Extra.with_quantity q e]> l) = Some q.
Proof.
  intros Hidx Hn. unfold quantity_of.
  rewrite (findIndex_with_quantity id l n e q Hn), Hidx, at_index_of_nat.
  rewrite list_lookup_insert_eq by (by eapply lookup_lt_Some).
  reflexivity.
Qed.

Section ledger_steps.
Variable formatValue : float → string.

Lemma step_IncrementExtra_present id st n e :
  findIndex (has_id id) (extras st) = Z.of_nat n → extras st !! n = Some e →
  step formatValue (IncrementExtra id) st
  = Ok {| food := food st;
          extras := <[n := Extra.with_quantity (Extra.quantity e + 1) e]> (extras st);
          isFavorite := isFavorite st; foodQuantity := foodQuantity st |}.
Proof.
  intros Hidx Hn. unfold step, dispatch, handleIncrementExtra. simpl.
  rewrite Hidx, at_index_of_nat, Hn. simpl.
  rewrite splice_is_insert by (by eapply lookup_lt_Some). reflexivity.
Qed.

Lemma step_DecrementExtra_present id st n e :
  findIndex (has_id id) (extras st) = Z.of_nat n → extras st !! n = Some e →
  step formatValue (DecrementExtra id) st
  = Ok (if Extra.quantity e >? 0 then
          {| food := food st;
             extras := <[n := Extra.with_quantity (Extra.quantity e - 1) e]> (extras st);
             isFavorite := isFavorite st; foodQuantity := foodQuantity st |}
        else st).
Proof.
  intros Hidx Hn. unfold step, dispatch, handleDecrementExtra. simpl.
  rewrite Hidx, at_index_of_nat, Hn. simpl.
  destruct (Extra.quantity e >? 0); simpl; [|reflexivity].
  rewrite at_index_of_nat, Hn. simpl.
  rewrite splice_is_insert by (by eapply lookup_lt_Some). reflexivity.
Qed.

(** One press moves the quantity of its extra by one step of the floored
    count. *)
Lemma press_quantity id p st q :
  0 ≤ q → quantity_of id (extras st) = Some q →
  ∃ st', step formatValue (press_event id p) st = Ok st'
         ∧ quantity_of id (extras st')
           = Some (floored_count q [p]).
Proof.
  intros Hq0 Hq.
  destruct (quantity_of_present _ _ _ Hq) as (n & e & Hidx & Hn & _ & He).
  destruct p; simpl.
  - rewrite (step_IncrementExtra_present id st n e Hidx Hn).
    eexists; split; [reflexivity|]. simpl.
    rewrite (quantity_of_with_quantity id _ n e _ Hidx Hn). by rewrite He.
  - rewrite (step_DecrementExtra_present id st n e Hidx Hn).
    eexists; split; [reflexivity|]. rewrite He.
    destruct (Z.gtb_spec q 0).
    + simpl. rewrite (quantity_of_with_quantity id _ n e _ Hidx Hn).
      f_equal. lia.
    + rewrite Hq. f_equal. lia.
Qed.

Lemma run_presses id ps : ∀ st q,
  0 ≤ q → quantity_of id (extras st) = Some q →
  ∃ st', run formatValue (map (press_event id) ps) st = Ok st'
         ∧ quantity_of id (extras st') = Some (floored_count q ps).
Proof.
  induction ps as [|p ps IH]; intros st q Hq0 Hq.
  - exists st. split; [reflexivity | exact Hq].
  - destruct (press_quantity id p st q Hq0 Hq) as (st1 & Hstep & Hq1).
    assert (0 ≤ floored_count q [p]) as Hq1' by (destruct p; simpl; lia).
    destruct (IH st1 _ Hq1' Hq1) as (st' & Hrun & Hq').
    exists st'. split; [|exact Hq'].
    simpl. rewrite Hstep. exact Hrun.
Qed.
End ledger_steps.

(** *** The floored count in closed form *)

Lemma net_cons p ps : net (p :: ps) = net [p] + net ps.
Proof.
  unfold net, increments, decrements.
  destruct p; rewrite !filter_cons; repeat case_decide; try congruence;
    rewrite ?filter_nil; simpl length; lia.
Qed.

Lemma net_single p : net [p] = match p with Inc => 1 | Dec => -1 end.
Proof. by destruct p. Qed.

Lemma lowest_nonpositive ps : lowest ps ≤ 0.
Proof. destruct ps; simpl; lia. Qed.

Lemma lowest_attained ps : ∃ k, lowest ps = net (take k ps).
Proof.
  induction ps as [|p ps [k IH]].
  - by exists 0%nat.
  - cbn [lowest]. destruct (Z.le_gt_cases 0 (net [p] + lowest ps)).
    + exists 0%nat. rewrite Z.min_l by lia. reflexivity.
    + exists (S k). rewrite Z.min_r by lia.
      cbn [take firstn]. rewrite (net_cons p (take k ps)). lia.
Qed.

Lemma lowest_below_prefixes ps : ∀ k, lowest ps ≤ net (take k ps).
Proof.
  induction ps as [|p ps IH]; intros k.
  - by destruct k.
  - pose proof (lowest_nonpositive (p :: ps)) as Hle.
    destruct k as [|k]; [exact Hle|].
    cbn [lowest take firstn]. rewrite (net_cons p (take k ps)).
    specialize (IH k). lia.
Qed.

Lemma floored_count_nonnegative ps : ∀ q, 0 ≤ q → 0 ≤ floored_count q ps.
Proof.
  induction ps as [|p ps IH]; intros q Hq; simpl; [exact Hq|].
  apply IH. destruct p; lia.
Qed.

Lemma floored_count_closed_form ps : ∀ q, 0 ≤ q →
  floored_count q ps = q + net ps - Z.min 0 (q + lowest ps).
Proof.
  induction ps as [|p ps IH]; intros q Hq.
  - cbn. change (net []) with 0. lia.
  - change (floored_count q (p :: ps))
      with (floored_count
              (match p with Inc => q + 1 | Dec => Z.max 0 (q - 1) end) ps).
    rewrite IH by (destruct p; lia).
    rewrite (net_cons p ps), net_single. cbn [lowest]. rewrite net_single.
    pose proof (lowest_nonpositive ps). destruct p; lia.
Qed.

Lemma present_quantity_of id (l : list Extra.t) :
  id ∈ map Extra.id l →
  ∃ n e, findIndex (has_id id) l = Z.of_nat n ∧ l !! n = Some e
         ∧ Extra.id e = id.
Proof.
  intros Hin.
  destruct (findIndex_spec (has_id id) l)
    as [[_ Hall] | (n & e & Hidx & Hn & He & _)].
  - apply list_elem_of_fmap in Hin as (e & -> & He).
    rewrite Forall_forall in Hall. specialize (Hall e He).
    unfold has_id in Hall. apply Z.eqb_neq in Hall. congruence.
  - exists n, e. unfold has_id in He. apply Z.eqb_eq in He. auto.
Qed.

(** C2 (as amended).  Take an extra of the ledger whose quantity is 0 and
    press its increment and decrement buttons in any order.  Every press is
    handled, and the quantity is then the floored count of the presses: +1
    for an increment, -1 for a decrement unless the quantity is 0.  It is
    never below 0, after the whole sequence or after any part of it; it is
    the number of increments less the number of decrements, less the lowest
    value that difference took on the way; and it is [max 0 (increments -
    decrements)] when no prefix of the sequence has more decrements than
    increments. *)
Theorem extra_quantity_is_floored_count
    (formatValue : float → string) (id : Z) (ps : list Press) (st : State) :
  quantity_of id (extras st) = Some 0 →
  (∃ st', run formatValue (map (press_event id) ps) st = Ok st'
          ∧ quantity_of id (extras st') = Some (floored_count 0 ps))
  ∧ (∀ k, ∃ st_k q,
        run formatValue (map (press_event id) (take k ps)) st = Ok st_k
        ∧ quantity_of id (extras st_k) = Some q ∧ 0 ≤ q)
  ∧ floored_count 0 ps = net ps - lowest ps
  ∧ ((∀ k, 0 ≤ net (take k ps)) → floored_count 0 ps = Z.max 0 (net ps)).
Proof.
  intros Hq. split; [|split; [|split]].
  - by apply run_presses.
  - intros k.
    destruct (run_presses formatValue id (take k ps) st 0) as (st_k & Hrun & Hk);
      [lia | exact Hq |].
    exists st_k, (floored_count 0 (take k ps)).
    repeat split; try assumption. by apply floored_count_nonnegative.
  - rewrite floored_count_closed_form by lia.
    pose proof (lowest_nonpositive ps). lia.
  - intros Hprefix. rewrite floored_count_closed_form by lia.
    destruct (lowest_attained ps) as [k Hk].
    pose proof (Hprefix k). pose proof (Hprefix (length ps)) as Hall.
    rewrite firstn_all in Hall. pose proof (lowest_nonpositive ps). lia.
Qed.

Lemma extra_quantity_is_floored_count_witness :
  quantity_of 11 (extras burger_loaded) = Some 0
  ∧ ∃ st', run fraction_text (map (press_event 11) [Dec; Inc; Inc; Dec; Inc])
             burger_loaded = Ok st'
           ∧ quantity_of 11 (extras st') = Some 2.
Proof.
  split; [reflexivity|].
  apply (extra_quantity_is_floored_count fraction_text 11
           [Dec; Inc; Inc; Dec; Inc] burger_loaded).
  reflexivity.
Defined.

(** A decrement pressed at quantity 0 is absorbed, so it is not made up for
    by a later increment: after [Dec; Inc] the quantity is 1, while
    [max 0 (increments - decrements)] is 0. *)
Lemma absorbed_decrement_counterexample :
  quantity_of 11 (extras burger_loaded) = Some 0
  ∧ ¬ ∃ st', run fraction_text (map (press_event 11) [Dec; Inc]) burger_loaded
             = Ok st'
           ∧ quantity_of 11 (extras st') = Some (Z.max 0 (net [Dec; Inc])).
Proof.
  split; [reflexivity|]. intros (st' & Hrun & Hq).
  vm_compute in Hrun. injection Hrun as <-. vm_compute in Hq. discriminate.
Qed.

(** C4 (as amended).  When no extra of the ledger has the id, [findIndex]
    answers -1, the updater reads [quantity] of [oldState[-1]], which is
    [undefined], and a [TypeError] is thrown: no ledger is stored. *)
Theorem increment_of_absent_extra_throws
    (formatValue : float → string) (id : Z) (st : State) :
  Forall (λ e, Extra.id e ≠ id) (extras st) →
  findIndex (has_id id) (extras st) = -1
  ∧ step formatValue (IncrementExtra id) st = Throw TypeError.
Proof.
  intros Habsent. pose proof (findIndex_absent id _ Habsent) as Hidx.
  split; [exact Hidx|].
  unfold step, dispatch, handleIncrementExtra. simpl.
  rewrite Hidx. reflexivity.
Qed.

Lemma increment_of_absent_extra_throws_witness :
  Forall (λ e, Extra.id e ≠ 99) (extras burger_loaded)
  ∧ step fraction_text (IncrementExtra 99) burger_loaded = Throw TypeError.
Proof.
  assert (Forall (λ e, Extra.id e ≠ 99) (extras burger_loaded)) as H.
  { repeat constructor. simpl. lia. }
  split; [exact H|].
  apply (increment_of_absent_extra_throws fraction_text 99 burger_loaded H).
Defined.

(** Incrementing an id that the ledger does not hold is not a silent no-op:
    the step does not end in the unchanged state, it throws. *)
Lemma increment_of_absent_extra_counterexample :
  Forall (λ e, Extra.id e ≠ 99) (extras burger_loaded)
  ∧ step fraction_text (IncrementExtra 99) burger_loaded ≠ Ok burger_loaded
  ∧ step fraction_text (IncrementExtra 99) burger_loaded = Throw TypeError.
Proof.
  split; [repeat constructor; simpl; lia|].
  split; [vm_compute; discriminate | reflexivity].
Qed.

(** C10.  A press on the increment or on the decrement button of an extra
    that the ledger holds is handled, and it changes at most the quantity of
    the extra that [findIndex] selects: the ledger keeps its length, the
    ids, names and values keep their places, every other position keeps its
    extra, and the food, the food quantity and the favorite flag are as
    before. *)
Theorem extra_press_changes_one_quantity
    (formatValue : float → string) (id : Z) (p : Press) (st : State) :
  id ∈ map Extra.id (extras st) →
  ∃ st' n, step formatValue (press_event id p) st = Ok st'
    ∧ findIndex (has_id id) (extras st) = Z.of_nat n
    ∧ food st' = food st
    ∧ foodQuantity st' = foodQuantity st
    ∧ isFavorite st' = isFavorite st
    ∧ length (extras st') = length (extras st)
    ∧ map Extra.id (extras st') = map Extra.id (extras st)
    ∧ map Extra.name (extras st') = map Extra.name (extras st)
    ∧ map Extra.value (extras st') = map Extra.value (extras st)
    ∧ ∀ m, m ≠ n → extras st' !! m = extras st !! m.
Proof.
  intros Hin. destruct (present_quantity_of id _ Hin) as (n & e & Hidx & Hn & _).
  assert (∀ q, let l' := <[n := Extra.with_quantity q e]> (extras st) in
            length l' = length (extras st)
            ∧ map Extra.id l' = map Extra.id (extras st)
            ∧ map Extra.name l' = map Extra.name (extras st)
            ∧ map Extra.value l' = map Extra.value (extras st)
            ∧ ∀ m, m ≠ n → l' !! m = extras st !! m) as Hframe.
  { intros q l'. subst l'. split; [apply length_insert|].
    repeat split; try (by apply map_insert_with_quantity).
    intros m Hm. by apply list_lookup_insert_ne. }
  destruct p; simpl.
  - rewrite (step_IncrementExtra_present formatValue id st n e Hidx Hn).
    eexists _, n. split; [reflexivity|]. split; [exact Hidx|]. simpl.
    do 3 (split; [reflexivity|]). apply Hframe.
  - rewrite (step_DecrementExtra_present formatValue id st n e Hidx Hn).
    eexists _, n. split; [reflexivity|]. split; [exact Hidx|].
    destruct (Extra.quantity e >? 0); simpl.
    + do 3 (split; [reflexivity|]). apply Hframe.
    + repeat split; reflexivity.
Qed.

(** A press on the plus icon of the cheese, the second of two extras: the
    bacon before it keeps its place and its quantity. *)
Lemma extra_press_changes_one_quantity_witness :
  12 ∈ map Extra.id (extras cheeseburger_ordered)
  ∧ ∃ st', step fraction_text (press_event 12 Inc) cheeseburger_ordered = Ok st'
      ∧ extras st' !! 0%nat = Some bacon
      ∧ length (extras st') = 2%nat
      ∧ map Extra.id (extras st') = [11; 12]
      ∧ map Extra.name (extras st') = ["Bacon"; "Cheese"]
      ∧ map Extra.value (extras st') = [2%float; 1.5%float]
      ∧ food st' = food cheeseburger_ordered
      ∧ foodQuantity st' = 1
      ∧ isFavorite st' = false.
Proof.
  assert (12 ∈ map Extra.id (extras cheeseburger_ordered)) as H
    by (simpl; do 2 constructor).
  split; [exact H|].
  destruct (extra_press_changes_one_quantity fraction_text 12 Inc
              cheeseburger_ordered H)
    as (st' & n & Hstep & Hidx & Hfood & Hq & Hfav & Hlen & Hids & Hnames
        & Hvalues & Hother).
  exists st'. split; [exact Hstep|].
  assert (findIndex (has_id 12) (extras cheeseburger_ordered) = 1) as Hone
    by reflexivity.
  assert (n = 1%nat) as -> by lia.
  split; [by rewrite (Hother 0%nat)|].
  by repeat split.
Defined.

(** ** The food quantity *)

Section food_quantity.
Variable formatValue : float → string.

(** What each event does to the food quantity. *)
Lemma step_foodQuantity ev st st' :
  step formatValue ev st = Ok st' →
  foodQuantity st'
  = match ev with
    | IncrementFood => foodQuantity st + 1
    | DecrementFood =>
        if foodQuantity st >? 1 then foodQuantity st - 1 else foodQuantity st
    | _ => foodQuantity st
    end.
Proof.
  intros H. destruct ev; unfold step, dispatch in H; simpl in H.
  - destruct r; simpl in H; by injection H as <-.
  - destruct r; simpl in H; by injection H as <-.
  - unfold handleIncrementExtra in H. simpl in H.
    destruct (defined _); simpl in H; [by injection H as <- | discriminate].
  - unfold handleDecrementExtra in H.
    destruct (defined _) as [current|]; simpl in H; [|discriminate].
    destruct (Extra.quantity current >? 0); simpl in H; [|by injection H as <-].
    destruct (defined _); simpl in H; [by injection H as <- | discriminate].
  - by injection H as <-.
  - unfold handleDecrementFood in H.
    destruct (foodQuantity st >? 1); simpl in H; by injection H as <-.
  - destruct r; simpl in H; by injection H as <-.
  - by injection H as <-.
Qed.

Lemma reachable_foodQuantity st : reachable formatValue st → 1 ≤ foodQuantity st.
Proof.
  induction 1 as [|ev st st' _ IH Hstep].
  - simpl. lia.
  - rewrite (step_foodQuantity ev st st' Hstep).
    destruct ev; try exact IH; [lia|].
    destruct (Z.gtb_spec (foodQuantity st) 1); lia.
Qed.
End food_quantity.

(** C3.  In every state that the component can reach the food quantity is at
    least 1.  The decrement button takes 1 from it but stops at 1, where it
    leaves the state as it is; the increment button adds 1 whatever the
    quantity. *)
Theorem food_quantity_at_least_one
    (formatValue : float → string) (st : State) :
  reachable formatValue st →
  1 ≤ foodQuantity st
  ∧ (∃ st', step formatValue DecrementFood st = Ok st'
            ∧ foodQuantity st' = Z.max 1 (foodQuantity st - 1)
            ∧ (foodQuantity st = 1 → st' = st))
  ∧ (∃ st', step formatValue IncrementFood st = Ok st'
            ∧ foodQuantity st' = foodQuantity st + 1)
  ∧ ∀ ev st', step formatValue ev st = Ok st' → foodQuantity st' ≠ 0.
Proof.
  intros Hreach. pose proof (reachable_foodQuantity _ _ Hreach) as Hone.
  split; [exact Hone|]. split; [|split].
  - unfold step, dispatch, handleDecrementFood. simpl.
    destruct (Z.gtb_spec (foodQuantity st) 1); simpl.
    + eexists. split; [reflexivity|]. simpl. split; lia.
    + exists st. split; [reflexivity|]. split; [lia | reflexivity].
  - eexists. split; [reflexivity|]. reflexivity.
  - intros ev st' Hstep.
    pose proof (reachable_foodQuantity _ _
                  (reachable_step _ ev st st' Hreach Hstep)). lia.
Qed.

Lemma food_quantity_at_least_one_witness :
  reachable fraction_text initial
  ∧ ∃ st', step fraction_text DecrementFood initial = Ok st'
           ∧ foodQuantity st' = 1.
Proof.
  pose proof (food_quantity_at_least_one fraction_text initial
                (reachable_initial fraction_text)) as (_ & Hdec & _).
  split; [apply reachable_initial|].
  destruct Hdec as (st' & Hstep & Hq & _). exists st'. split; [exact Hstep|].
  exact Hq.
Defined.

(** ** Loading *)

(** C5 (as amended).  Whatever the state before it, a load that succeeds
    stores the fetched food with its formatted price and replaces the ledger
    by the fetched extras, each with quantity 0 and otherwise as fetched.
    The load does not write the food quantity: it stays what it was, which
    is 1 when the food is loaded into the initial state. *)
Theorem load_zeroes_extras_and_keeps_food_quantity
    (formatValue : float → string) (id : Z) (foodFromApi : Food.t)
    (st : State) :
  (∃ st', step formatValue (LoadFood id (Some foodFromApi)) st = Ok st'
     ∧ food st'
       = Some (Food.with_formattedPrice
                 (formatValue (Food.price foodFromApi)) foodFromApi)
     ∧ extras st' = map (Extra.with_quantity 0) (Food.extras foodFromApi)
     ∧ Forall (λ e, Extra.quantity e = 0) (extras st')
     ∧ map Extra.id (extras st') = map Extra.id (Food.extras foodFromApi)
     ∧ foodQuantity st' = foodQuantity st
     ∧ isFavorite st' = isFavorite st)
  ∧ (∃ st1, step formatValue (LoadFood id (Some foodFromApi)) initial = Ok st1
       ∧ foodQuantity st1 = 1).
Proof.
  split.
  - eexists. split; [reflexivity|]. simpl.
    repeat split.
    + apply Forall_fmap, Forall_true. reflexivity.
    + rewrite <- list_fmap_compose. reflexivity.
  - eexists. split; reflexivity.
Qed.

(** A food quantity of 2 survives the load. *)
Lemma load_keeps_food_quantity_counterexample :
  ∃ st st', step fraction_text IncrementFood initial = Ok st
    ∧ foodQuantity st = 2
    ∧ step fraction_text (LoadFood 1 (Some burger)) st = Ok st'
    ∧ foodQuantity st' ≠ 1.
Proof.
  eexists _, _. split; [reflexivity|]. split; [reflexivity|].
  split; [reflexivity|]. simpl. lia.
Qed.

(** C9.  A load whose request is rejected makes no setter call, neither
    before the request settles nor after: the food, the ledger, the food
    quantity and the flag are what they were, and a screen that had no food
    still has the empty food and the empty ledger. *)
Theorem failed_load_changes_nothing
    (formatValue : float → string) (id : Z) (st : State) :
  start (loadFood formatValue id) st = Ok st
  ∧ finish (loadFood formatValue id) None st = Ok st
  ∧ step formatValue (LoadFood id None) st = Ok st
  ∧ (∃ st0, step formatValue (LoadFood id None) initial = Ok st0
       ∧ food st0 = None ∧ extras st0 = [] ∧ foodQuantity st0 = 1).
Proof.
  repeat split. exists initial. repeat split.
Qed.

(** ** The order *)

(** C6 (as amended).  The body posted to [orders] is [{ ...food, extras }]:
    its keys are the seven keys of the food, six of them with the values
    they have in the food, and [extras] with the ledger as it is, zero
    quantities included.  The food quantity is not part of it.  Posting
    leaves the state alone, whether the request succeeds or not. *)
Theorem order_body_is_food_with_ledger
    (formatValue : float → string) (f : Food.t) (ledger : list Extra.t)
    (isFav : bool) (fq : Z) :
  let st := {| food := Some f; extras := ledger; isFavorite := isFav;
               foodQuantity := fq |} in
  let body := order_body (food st) (extras st) in
  request (handleFinishOrder (food st) (extras st)) = POST_orders body
  ∧ body !! "id" = Some (FNumber (number_of_Z (Food.id f)))
  ∧ body !! "name" = Some (FString (Food.name f))
  ∧ body !! "description" = Some (FString (Food.description f))
  ∧ body !! "price" = Some (FNumber (Food.price f))
  ∧ body !! "image_url" = Some (FString (Food.image_url f))
  ∧ body !! "formattedPrice" = Some (FString (Food.formattedPrice f))
  ∧ body !! "extras" = Some (FExtras ledger)
  ∧ body !! "foodQuantity" = None
  ∧ dom body
    = ({[ "id"; "name"; "description"; "price"; "image_url";
          "formattedPrice"; "extras" ]} : gset string)
  ∧ ∀ r, step formatValue (FinishOrder r) st = Ok st.
Proof.
  intros st body. subst st body. unfold order_body, food_cell_object, food_object.
  simpl. split; [reflexivity|].
  do 8 (split; [by simplify_map_eq|]).
  split; [|reflexivity].
  rewrite !dom_insert_L, dom_empty_L. set_solver.
Qed.

(** In the scenario of the specification the body holds extra 11 with
    quantity 3, while the food quantity, 2, is not in it. *)
Lemma order_body_counterexample :
  ∃ st, run fraction_text scenario initial = Ok st
    ∧ foodQuantity st = 2
    ∧ order_body (food st) (extras st) !! "extras"
      = Some (FExtras [Extra.with_quantity 3 bacon])
    ∧ order_body (food st) (extras st) !! "foodQuantity"
      ≠ Some (FNumber (number_of_Z (foodQuantity st))).
Proof.
  eexists. split; [vm_compute; reflexivity|].
  split; [reflexivity|]. split; [reflexivity|]. vm_compute. discriminate.
Qed.

(** ** The favorite flag *)

(** C7 (as amended).  [toggleFavorite] does not touch the flag before its
    request has settled: it sends [DELETE favorites/id] when the flag is
    set and [POST favorites] with the food when it is not, and waits.  When
    the request succeeds the flag is negated and nothing else changes; when
    it fails the state is left as it was, flag included. *)
Theorem toggle_writes_before_it_flips
    (formatValue : float → string) (st : State) :
  let toggle := toggleFavorite (isFavorite st) (food st) in
  start toggle st = Ok st
  ∧ request toggle
    = (if isFavorite st then DELETE_favorite (Food.id <$> food st)
       else POST_favorites (food_cell_object (food st)))
  ∧ finish toggle (Some ()) st
    = Ok {| food := food st; extras := extras st;
            isFavorite := negb (isFavorite st);
            foodQuantity := foodQuantity st |}
  ∧ finish toggle None st = Ok st
  ∧ step formatValue (ToggleFavorite None) st = Ok st.
Proof. repeat split. Qed.

(** The flag of [burger_loaded] is clear.  It is still clear while the
    request is in flight, and still clear after the request has failed. *)
Lemma toggle_is_not_optimistic_counterexample :
  let toggle := toggleFavorite (isFavorite burger_loaded) (food burger_loaded) in
  (¬ ∃ st', start toggle burger_loaded = Ok st'
            ∧ isFavorite st' = negb (isFavorite burger_loaded))
  ∧ (¬ ∃ st', step fraction_text (ToggleFavorite None) burger_loaded = Ok st'
              ∧ isFavorite st' = negb (isFavorite burger_loaded)).
Proof.
  split; intros (st' & H & Hflag); injection H as <-; discriminate.
Qed.

(** C8.  Two toggles whose requests both succeed bring the component back to
    the state it was in; the first one negates the flag, and the second
    request is the opposite of the first. *)
Theorem toggle_twice_is_identity
    (formatValue : float → string) (st : State) :
  run formatValue [ToggleFavorite (Some ()); ToggleFavorite (Some ())] st = Ok st
  ∧ ∃ st1, step formatValue (ToggleFavorite (Some ())) st = Ok st1
      ∧ isFavorite st1 = negb (isFavorite st)
      ∧ request (toggleFavorite (isFavorite st1) (food st1))
        = (if isFavorite st then POST_favorites (food_cell_object (food st))
           else DELETE_favorite (Food.id <$> food st))
      ∧ step formatValue (ToggleFavorite (Some ())) st1 = Ok st.
Proof.
  destruct st as [f l fav q]. split.
  - simpl. unfold step. simpl. by rewrite negb_involutive.
  - eexists. split; [reflexivity|]. split; [reflexivity|].
    split; [by destruct fav|].
    unfold step. simpl. by rewrite negb_involutive.
Qed.

(** ** The total *)





Lemma nan_mul (x : float) : (nan * x)%float = nan.
Proof. apply Prim2SF_inj. by rewrite mul_spec. Qed.


(** What reaches [formatValue] is the rounded number: for a price of 0.1 and
    one extra of value 0.2 it is 0.30000000000000004, not 0.3; and a total
    beyond the largest binary64 number is [Infinity]. *)
Lemma cartTotal_number_is_rounded :
  cartTotal_number (Some lemonade) [mint] 1 = 0x1.3333333333334p-2%float
  ∧ cartTotal_number (Some lemonade) [mint] 1 ≠ 0x1.3333333333333p-2%float
  ∧ cartTotal_number
      (Some (Food.mk 4 "Feast" "" 0x1p+1023%float "" "" [])) [] 2
    = infinity.
Proof.
  split; [by vm_compute|]. split; [|by vm_compute].
  intros H. apply (f_equal Prim2SF) in H. vm_compute in H. discriminate.
Qed.

Section total.
Variable formatValue : float → string.



Lemma same_deps_eq a b : same_deps a b = true → a = b.
Proof.
  destruct a, b. unfold same_deps. simpl. intros H.
  apply andb_true_iff in H as [H Hq]. apply andb_true_iff in H as [He Hf].
  apply Nat.eqb_eq in He, Hf. apply Z.eqb_eq in Hq. congruence.
Qed.

Lemma render_cells rt : cells (render formatValue rt) = cells rt.
Proof. unfold render. by destruct (useMemo _ _ _). Qed.

(** A setter call followed by a render leaves a rendered component: the
    memo cell is reused only when the three dependencies are the ones it
    was computed from, and then the cells it reads are unchanged. *)
Lemma render_after_update u rt rt' :
  rendered formatValue rt → rt_apply_update u rt = Ok rt' →
  rendered formatValue (render formatValue rt').
Proof.
  intros (Hmemo & Hshown & He & Hf) Hu. unfold rt_apply_update in Hu.
  destruct (apply_update u (cells rt)) as [st'|] eqn:Hst; [|discriminate].
  simpl in Hu. injection Hu as <-.
  unfold rendered, render, useMemo, deps_of.
  destruct u; simpl in *; rewrite Hmemo; unfold deps_of, same_deps; simpl.
  - injection Hst as <-. simpl.
    destruct (Nat.eqb_spec (food_ref rt) (fresh rt)); [lia|].
    rewrite andb_false_r. simpl. repeat split; lia.
  - destruct (u (extras (cells rt))); [|discriminate]. injection Hst as <-.
    simpl. destruct (Nat.eqb_spec (extras_ref rt) (fresh rt)); [lia|].
    simpl. repeat split; lia.
  - injection Hst as <-. simpl.
    rewrite !Nat.eqb_refl, Z.eqb_refl. simpl. repeat split; assumption.
  - injection Hst as <-. simpl. rewrite !Nat.eqb_refl. simpl.
    destruct (Z.eqb_spec (foodQuantity (cells rt)) (u (foodQuantity (cells rt))))
      as [Hsame|Hother]; simpl.
    + rewrite <- Hsame. repeat split; assumption.
    + repeat split; assumption.
Qed.

Lemma rt_commit_rendered us : ∀ rt rt',
  rendered formatValue rt → rt_commit formatValue us rt = Ok rt' →
  rendered formatValue rt'.
Proof.
  induction us as [|u us IH]; intros rt rt' Hr H; simpl in H.
  - by injection H as <-.
  - destruct (rt_apply_update u rt) as [rt1|] eqn:Hu; [|discriminate].
    simpl in H. eapply IH; [|exact H]. by eapply render_after_update.
Qed.

Lemma mount_rendered : rendered formatValue (mount formatValue).
Proof. unfold rendered, mount. simpl. repeat split; lia. Qed.

Lemma rt_reachable_rendered rt :
  rt_reachable formatValue rt → rendered formatValue rt.
Proof.
  induction 1 as [|ev rt rt' _ IH Hstep].
  - apply mount_rendered.
  - unfold rt_step in Hstep.
    destruct (dispatch formatValue ev (cells rt)) as [us|]; [|discriminate].
    simpl in Hstep. by eapply rt_commit_rendered.
Qed.

(** The cells of the rendering component move as the state machine does. *)
Lemma rt_commit_cells us : ∀ rt,
  match rt_commit formatValue us rt, commit us (cells rt) with
  | Ok rt', Ok st' => cells rt' = st'
  | Throw e, Throw e' => e = e'
  | _, _ => False
  end.
Proof.
  induction us as [|u us IH]; intros rt; simpl.
  - reflexivity.
  - unfold rt_apply_update.
    destruct (apply_update u (cells rt)) as [st'|e] eqn:Hst; simpl; [|reflexivity].
    match goal with |- context [render formatValue ?r] =>
      specialize (IH (render formatValue r)) end.
    rewrite render_cells in IH. destruct u; exact IH.
Qed.

Lemma rt_step_cells ev rt :
  match rt_step formatValue ev rt, step formatValue ev (cells rt) with
  | Ok rt', Ok st' => cells rt' = st'
  | Throw e, Throw e' => e = e'
  | _, _ => False
  end.
Proof.
  unfold rt_step, step.
  destruct (dispatch formatValue ev (cells rt)) as [us|e]; simpl;
    [apply rt_commit_cells | reflexivity].
Qed.

(** The rendering component reaches the states of the state machine, and
    all of them. *)
Lemma rt_reachable_cells rt :
  rt_reachable formatValue rt → reachable formatValue (cells rt).
Proof.
  induction 1 as [|ev rt rt' _ IH Hstep].
  - unfold mount. rewrite render_cells. apply reachable_initial.
  - pose proof (rt_step_cells ev rt) as Hc. rewrite Hstep in Hc.
    destruct (step formatValue ev (cells rt)) as [st'|] eqn:Hs; [|contradiction].
    subst st'. by eapply reachable_step.
Qed.

Lemma reachable_has_runtime st :
  reachable formatValue st →
  ∃ rt, rt_reachable formatValue rt ∧ cells rt = st.
Proof.
  induction 1 as [|ev st st' _ (rt & Hrt & <-) Hstep].
  - exists (mount formatValue). split; [constructor|].
    unfold mount. by rewrite render_cells.
  - pose proof (rt_step_cells ev rt) as Hc. rewrite Hstep in Hc.
    destruct (rt_step formatValue ev rt) as [rt'|] eqn:Hs; [|contradiction].
    exists rt'. split; [by eapply rt_reachable_step | exact Hc].
Qed.

End total.



(** * Further properties of the handlers *)

(** ** Presses on the extras *)

Lemma with_own_quantity (e : Extra.t) : Extra.with_quantity (Extra.quantity e) e = e.
Proof. by destruct e. Qed.

Lemma with_quantity_twice q q' (e : Extra.t) :
  Extra.with_quantity q (Extra.with_quantity q' e) = Extra.with_quantity q e.
Proof. reflexivity. Qed.

Section presses.
Variable formatValue : float → string.

(** Both handlers in one equation. *)
Lemma step_press id p st n e :
  findIndex (has_id id) (extras st) = Z.of_nat n → extras st !! n = Some e →
  step formatValue (press_event id p) st
  = Ok {| food := food st;
          extras := <[n := Extra.with_quantity
                             (after_press p (Extra.quantity e)) e]> (extras st);
          isFavorite := isFavorite st; foodQuantity := foodQuantity st |}.
Proof.
  intros Hidx Hn. destruct p; simpl.
  - by apply step_IncrementExtra_present.
  - rewrite (step_DecrementExtra_present formatValue id st n e Hidx Hn).
    destruct (Extra.quantity e >? 0); [reflexivity|].
    rewrite with_own_quantity, list_insert_id by exact Hn. by destruct st.
Qed.

Lemma step_press_absent id p st :
  findIndex (has_id id) (extras st) = -1 →
  step formatValue (press_event id p) st = Throw TypeError.
Proof.
  intros Hidx. destruct p; unfold step, dispatch; simpl.
  - unfold handleIncrementExtra. simpl. by rewrite Hidx.
  - unfold handleDecrementExtra. by rewrite Hidx.
Qed.

(** A press that is handled found its extra. *)
Lemma step_press_found id p st st' :
  step formatValue (press_event id p) st = Ok st' →
  ∃ n e, findIndex (has_id id) (extras st) = Z.of_nat n
         ∧ extras st !! n = Some e ∧ Extra.id e = id.
Proof.
  intros Hstep.
  destruct (findIndex_spec (has_id id) (extras st))
    as [[Hnone _] | (n & e & Hidx & Hn & He & _)].
  - rewrite (step_press_absent id p st Hnone) in Hstep. discriminate.
  - exists n, e. unfold has_id in He. apply Z.eqb_eq in He. auto.
Qed.
End presses.

(** X1.  [handleDecrementExtra] on an id that the ledger does not hold,
    which includes every id while the ledger is empty, throws a [TypeError]
    in the handler itself, when it reads [quantity] of [extras[-1]]: no
    setter is called. *)
Theorem decrement_of_absent_extra_throws
    (formatValue : float → string) (id : Z) (st : State) :
  Forall (λ e, Extra.id e ≠ id) (extras st) →
  handleDecrementExtra (extras st) id = Throw TypeError
  ∧ step formatValue (DecrementExtra id) st = Throw TypeError.
Proof.
  intros Habsent. pose proof (findIndex_absent id _ Habsent) as Hidx.
  assert (handleDecrementExtra (extras st) id = Throw TypeError) as H.
  { unfold handleDecrementExtra. by rewrite Hidx. }
  split; [exact H|]. unfold step, dispatch. by rewrite H.
Qed.

Lemma decrement_of_absent_extra_throws_witness :
  Forall (λ e, Extra.id e ≠ 11) (extras initial)
  ∧ step fraction_text (DecrementExtra 11) initial = Throw TypeError.
Proof.
  assert (Forall (λ e, Extra.id e ≠ 11) (extras initial)) as H by constructor.
  split; [exact H|].
  apply (decrement_of_absent_extra_throws fraction_text 11 initial H).
Defined.

(** X2.  The minus icon of an extra whose quantity is 0 (or less) calls no
    setter: the whole state is left as it is. *)
Theorem decrement_at_zero_is_noop
    (formatValue : float → string) (id q : Z) (st : State) :
  quantity_of id (extras st) = Some q → q ≤ 0 →
  handleDecrementExtra (extras st) id = Ok []
  ∧ step formatValue (DecrementExtra id) st = Ok st.
Proof.
  intros Hq Hle.
  destruct (quantity_of_present _ _ _ Hq) as (n & e & Hidx & Hn & _ & He).
  assert (handleDecrementExtra (extras st) id = Ok []) as H.
  { unfold handleDecrementExtra. rewrite Hidx, at_index_of_nat, Hn. simpl.
    rewrite He. by destruct (Z.gtb_spec q 0); [lia|]. }
  split; [exact H|]. unfold step, dispatch. by rewrite H.
Qed.

Lemma decrement_at_zero_is_noop_witness :
  quantity_of 11 (extras burger_loaded) = Some 0
  ∧ step fraction_text (DecrementExtra 11) burger_loaded = Ok burger_loaded.
Proof.
  split; [reflexivity|].
  apply (decrement_at_zero_is_noop fraction_text 11 0 burger_loaded);
    [reflexivity | lia].
Defined.

(** X3.  On an extra of the ledger whose quantity is not negative, the plus
    icon followed by the minus icon gives back the state they started from;
    so does the minus icon followed by the plus icon when the quantity is
    positive. *)
Theorem increment_decrement_round_trip
    (formatValue : float → string) (id q : Z) (st : State) :
  quantity_of id (extras st) = Some q → 0 ≤ q →
  run formatValue [IncrementExtra id; DecrementExtra id] st = Ok st
  ∧ (0 < q → run formatValue [DecrementExtra id; IncrementExtra id] st = Ok st).
Proof.
  intros Hq Hq0.
  destruct (quantity_of_present _ _ _ Hq) as (n & e & Hidx & Hn & _ & He).
  assert (n < length (extras st))%nat as Hlen by (by eapply lookup_lt_Some).
  assert (∀ p1 p2,
            after_press p2 (after_press p1 q) = q →
            run formatValue [press_event id p1; press_event id p2] st = Ok st)
    as Hpair.
  { intros p1 p2 Hback. cbn [run].
    rewrite (step_press formatValue id p1 st n e Hidx Hn). simpl.
    erewrite step_press; cycle 1.
    - simpl. rewrite findIndex_with_quantity by exact Hn. exact Hidx.
    - simpl. by apply list_lookup_insert_eq.
    - simpl. rewrite list_insert_insert_eq, He, Hback, <- He.
      rewrite with_quantity_twice, with_own_quantity.
      rewrite list_insert_id by exact Hn. by destruct st. }
  split.
  - apply (Hpair Inc Dec). simpl. destruct (Z.gtb_spec (q + 1) 0); lia.
  - intros Hpos. apply (Hpair Dec Inc). simpl.
    destruct (Z.gtb_spec q 0); lia.
Qed.

Lemma increment_decrement_round_trip_witness :
  quantity_of 11 (extras burger_loaded) = Some 0
  ∧ run fraction_text [IncrementExtra 11; DecrementExtra 11] burger_loaded
    = Ok burger_loaded.
Proof.
  split; [reflexivity|].
  apply (increment_decrement_round_trip fraction_text 11 0 burger_loaded);
    [reflexivity | lia].
Defined.

(** X4.  Every icon that the screen renders can be pressed: the extra icons
    carry ids taken from the ledger, so their handlers find the extra, and
    no handler bound in the tree throws. *)
Theorem rendered_buttons_never_throw
    (formatValue : float → string) (st : State) (ev : Event) :
  ev ∈ buttons st → ∃ st', step formatValue ev st = Ok st'.
Proof.
  unfold buttons. rewrite elem_of_app, list_elem_of_bind.
  intros [(extra & Hev & Hin) | Hfood].
  - assert (Extra.id extra ∈ map Extra.id (extras st)) as Hid
      by (apply list_elem_of_fmap; eauto).
    destruct (present_quantity_of _ _ Hid) as (n & e & Hidx & Hn & _).
    apply elem_of_cons in Hev as [-> | Hev];
      [| apply elem_of_cons in Hev as [-> | Hev]].
    + eexists. exact (step_press formatValue _ Dec st n e Hidx Hn).
    + eexists. exact (step_press formatValue _ Inc st n e Hidx Hn).
    + by apply elem_of_nil in Hev.
  - apply elem_of_cons in Hfood as [-> | Hfood];
      [| apply elem_of_cons in Hfood as [-> | Hfood]].
    + unfold step, dispatch, handleDecrementFood.
      destruct (foodQuantity st >? 1); simpl; eauto.
    + unfold step. simpl. eauto.
    + by apply elem_of_nil in Hfood.
Qed.

Lemma rendered_buttons_never_throw_witness :
  IncrementExtra 11 ∈ buttons burger_loaded
  ∧ ∃ st', step fraction_text (IncrementExtra 11) burger_loaded = Ok st'.
Proof.
  assert (IncrementExtra 11 ∈ buttons burger_loaded) as H
    by (simpl; do 2 constructor).
  split; [exact H|].
  apply (rendered_buttons_never_throw fraction_text burger_loaded _ H).
Defined.

(** A press on one id leaves the quantity read for another id alone. *)
Lemma quantity_of_other id id' (l : list Extra.t) n e q :
  id' ≠ id → l !! n = Some e → Extra.id e = id →
  quantity_of id' (<[n := Extra.with_quantity q e]> l) = quantity_of id' l.
Proof.
  intros Hne Hn He. unfold quantity_of.
  rewrite (findIndex_with_quantity id' l n e q Hn).
  destruct (findIndex_spec (has_id id') l)
    as [[Hnone _] | (m & x & Hidx & Hm & Hx & _)].
  - rewrite Hnone, !at_index_negative by lia. reflexivity.
  - rewrite Hidx, !at_index_of_nat.
    destruct (decide (n = m)) as [->|Hnm].
    + unfold has_id in Hx. apply Z.eqb_eq in Hx. congruence.
    + by rewrite list_lookup_insert_ne.
Qed.

(** X5.  Presses on two different extras of the ledger can be made in either
    order: both orders are handled and end in the same state. *)
Theorem presses_on_two_extras_commute
    (formatValue : float → string) (a b : Z) (pa pb : Press) (st : State) :
  a ≠ b → a ∈ map Extra.id (extras st) → b ∈ map Extra.id (extras st) →
  ∃ st', run formatValue [press_event a pa; press_event b pb] st = Ok st'
       ∧ run formatValue [press_event b pb; press_event a pa] st = Ok st'.
Proof.
  intros Hab Ha Hb.
  destruct (present_quantity_of _ _ Ha) as (na & ea & Hia & Hna & Hea).
  destruct (present_quantity_of _ _ Hb) as (nb & eb & Hib & Hnb & Heb).
  assert (na ≠ nb) as Hn by (intros ->; congruence).
  eexists. split.
  - cbn [run]. rewrite (step_press formatValue a pa st na ea Hia Hna). simpl.
    erewrite step_press; cycle 1.
    + simpl. rewrite findIndex_with_quantity by exact Hna. exact Hib.
    + simpl. rewrite list_lookup_insert_ne by exact Hn. exact Hnb.
    + simpl. reflexivity.
  - cbn [run]. rewrite (step_press formatValue b pb st nb eb Hib Hnb). simpl.
    erewrite step_press; cycle 1.
    + simpl. rewrite findIndex_with_quantity by exact Hnb. exact Hia.
    + simpl. rewrite list_lookup_insert_ne by (by apply not_eq_sym). exact Hna.
    + simpl. by rewrite list_insert_insert_ne by (by apply not_eq_sym).
Qed.

Lemma presses_on_two_extras_commute_witness :
  ∃ st', run fraction_text [IncrementExtra 11; IncrementExtra 12]
           {| food := None;
              extras := [bacon; Extra.mk 12 "Cheese" 1 4];
              isFavorite := false; foodQuantity := 1 |} = Ok st'
       ∧ run fraction_text [IncrementExtra 12; IncrementExtra 11]
           {| food := None;
              extras := [bacon; Extra.mk 12 "Cheese" 1 4];
              isFavorite := false; foodQuantity := 1 |} = Ok st'.
Proof.
  apply (presses_on_two_extras_commute fraction_text 11 12 Inc Inc
           {| food := None;
              extras := [bacon; Extra.mk 12 "Cheese" 1 4];
              isFavorite := false; foodQuantity := 1 |}).
  - lia.
  - simpl. constructor.
  - simpl. do 2 constructor.
Defined.

(** X6.  Any sequence of presses on the icons of one extra of the ledger is
    handled, and it leaves the quantity of every other id, the ids of the
    ledger, the food, the food quantity and the flag as they were. *)
Theorem presses_leave_other_extras
    (formatValue : float → string) (id : Z) (ps : list Press) (st : State) :
  id ∈ map Extra.id (extras st) →
  ∃ st', run formatValue (map (press_event id) ps) st = Ok st'
    ∧ (∀ id', id' ≠ id →
         quantity_of id' (extras st') = quantity_of id' (extras st))
    ∧ map Extra.id (extras st') = map Extra.id (extras st)
    ∧ food st' = food st
    ∧ foodQuantity st' = foodQuantity st
    ∧ isFavorite st' = isFavorite st.
Proof.
  revert st. induction ps as [|p ps IH]; intros st Hin.
  - exists st. by repeat split.
  - destruct (present_quantity_of _ _ Hin) as (n & e & Hidx & Hn & He).
    pose proof (step_press formatValue id p st n e Hidx Hn) as Hstep.
    match type of Hstep with _ = Ok ?s => set (st1 := s) in * end.
    assert (map Extra.id (extras st1) = map Extra.id (extras st)) as Hids
      by (by apply map_insert_with_quantity).
    destruct (IH st1) as (st' & Hrun & Hother & Hids' & Hf & Hq & Hfav).
    { by rewrite Hids. }
    exists st'. split; [cbn [map run]; by rewrite Hstep|].
    split; [|by rewrite Hids', Hids].
    intros id' Hne. rewrite (Hother id' Hne). subst st1. simpl.
    by apply (quantity_of_other id id').
Qed.

(** Three presses on the icons of the bacon: the cheese, the other extra
    of the ledger, keeps its quantity of 2. *)
Lemma presses_leave_other_extras_witness :
  11 ∈ map Extra.id (extras cheeseburger_ordered)
  ∧ ∃ st', run fraction_text (map (press_event 11) [Inc; Inc; Dec])
             cheeseburger_ordered = Ok st'
      ∧ quantity_of 12 (extras st') = Some 2
      ∧ map Extra.id (extras st') = [11; 12]
      ∧ food st' = food cheeseburger_ordered
      ∧ foodQuantity st' = 1
      ∧ isFavorite st' = false.
Proof.
  assert (11 ∈ map Extra.id (extras cheeseburger_ordered)) as H
    by (simpl; constructor).
  split; [exact H|].
  destruct (presses_leave_other_extras fraction_text 11 [Inc; Inc; Dec]
              cheeseburger_ordered H)
    as (st' & Hrun & Hother & Hids & Hf & Hq & Hfav).
  exists st'. split; [exact Hrun|].
  split; [rewrite (Hother 12) by lia; reflexivity|].
  by repeat split.
Defined.

(** X7.  The handlers change the first extra that has the id.  An extra
    that comes after another extra with the same id is out of their reach:
    no press on that id changes it. *)
Theorem later_duplicate_is_never_changed
    (formatValue : float → string) (id : Z) (p : Press) (st : State)
    (n m : nat) (e e' : Extra.t) :
  extras st !! n = Some e → Extra.id e = id → (n < m)%nat →
  extras st !! m = Some e' →
  ∃ st', step formatValue (press_event id p) st = Ok st'
       ∧ extras st' !! m = Some e'.
Proof.
  intros Hn He Hnm Hm.
  destruct (findIndex_spec (has_id id) (extras st))
    as [[_ Hall] | (k & x & Hidx & Hk & _ & Hfirst)].
  - rewrite Forall_forall in Hall.
    specialize (Hall e (list_elem_of_lookup_2 _ _ _ Hn)).
    unfold has_id in Hall. apply Z.eqb_neq in Hall. congruence.
  - assert (k ≤ n)%nat as Hkn.
    { destruct (le_lt_dec k n) as [|Hlt]; [assumption|].
      specialize (Hfirst n e Hlt Hn). unfold has_id in Hfirst.
      apply Z.eqb_neq in Hfirst. congruence. }
    eexists. split; [exact (step_press formatValue id p st k x Hidx Hk)|].
    simpl. rewrite list_lookup_insert_ne by lia. exact Hm.
Qed.

Lemma later_duplicate_is_never_changed_witness :
  ∃ st', step fraction_text (IncrementExtra 11)
           {| food := None; extras := [bacon; bacon];
              isFavorite := false; foodQuantity := 1 |} = Ok st'
       ∧ extras st' !! 1%nat = Some bacon.
Proof.
  apply (later_duplicate_is_never_changed fraction_text 11 Inc
           {| food := None; extras := [bacon; bacon];
              isFavorite := false; foodQuantity := 1 |}
           0 1 bacon bacon); [reflexivity | reflexivity | lia | reflexivity].
Defined.

Lemma floored_count_increments k : ∀ q,
  floored_count q (replicate k Inc) = q + Z.of_nat k.
Proof.
  induction k as [|k IH]; intros q; [cbn; lia|].
  change (floored_count q (replicate (S k) Inc))
    with (floored_count (q + 1) (replicate k Inc)).
  rewrite IH. lia.
Qed.

Lemma floored_count_decrements k : ∀ q, 0 ≤ q →
  floored_count q (replicate k Dec) = Z.max 0 (q - Z.of_nat k).
Proof.
  induction k as [|k IH]; intros q Hq; [cbn; lia|].
  change (floored_count q (replicate (S k) Dec))
    with (floored_count (Z.max 0 (q - 1)) (replicate k Dec)).
  rewrite IH by lia. lia.
Qed.

(** X8.  On an extra of the ledger whose quantity [q] is not negative, [k]
    presses on the plus icon bring the quantity to [q + k], there is no
    upper limit, and [k] presses on the minus icon bring it to
    [max 0 (q - k)]. *)
Theorem repeated_presses_on_an_extra
    (formatValue : float → string) (id q : Z) (k : nat) (st : State) :
  quantity_of id (extras st) = Some q → 0 ≤ q →
  (∃ st', run formatValue (replicate k (IncrementExtra id)) st = Ok st'
          ∧ quantity_of id (extras st') = Some (q + Z.of_nat k))
  ∧ (∃ st', run formatValue (replicate k (DecrementExtra id)) st = Ok st'
            ∧ quantity_of id (extras st') = Some (Z.max 0 (q - Z.of_nat k))).
Proof.
  intros Hq Hq0. split.
  - destruct (run_presses formatValue id (replicate k Inc) st q Hq0 Hq)
      as (st' & Hrun & Hq').
    rewrite fmap_replicate in Hrun. rewrite floored_count_increments in Hq'.
    eauto.
  - destruct (run_presses formatValue id (replicate k Dec) st q Hq0 Hq)
      as (st' & Hrun & Hq').
    rewrite fmap_replicate in Hrun.
    rewrite floored_count_decrements in Hq' by exact Hq0. eauto.
Qed.

Lemma repeated_presses_on_an_extra_witness :
  ∃ st', run fraction_text (replicate 5 (IncrementExtra 11)) burger_loaded
         = Ok st'
       ∧ quantity_of 11 (extras st') = Some 5.
Proof.
  apply (repeated_presses_on_an_extra fraction_text 11 0 5 burger_loaded);
    [reflexivity | lia].
Defined.

(** ** Presses on the food *)

Section food_presses.
Variable formatValue : float → string.

Lemma run_increment_food k : ∀ st,
  run formatValue (replicate k IncrementFood) st
  = Ok {| food := food st; extras := extras st; isFavorite := isFavorite st;
          foodQuantity := foodQuantity st + Z.of_nat k |}.
Proof.
  induction k as [|k IH]; intros st.
  - simpl. rewrite Z.add_0_r. by destruct st.
  - cbn [replicate run]. unfold step at 1. simpl. rewrite IH. simpl.
    do 2 f_equal. lia.
Qed.

Lemma run_decrement_food k : ∀ st, 1 ≤ foodQuantity st →
  run formatValue (replicate k DecrementFood) st
  = Ok {| food := food st; extras := extras st; isFavorite := isFavorite st;
          foodQuantity := Z.max 1 (foodQuantity st - Z.of_nat k) |}.
Proof.
  induction k as [|k IH]; intros st Hq.
  - simpl. rewrite Z.sub_0_r, Z.max_r by lia. by destruct st.
  - cbn [replicate run]. unfold step at 1, dispatch, handleDecrementFood.
    destruct (Z.gtb_spec (foodQuantity st) 1); simpl.
    + rewrite IH by (simpl; lia). simpl. do 2 f_equal. lia.
    + rewrite IH by exact Hq. do 2 f_equal. lia.
Qed.
End food_presses.

(** X9.  From a food quantity [q] of at least 1, [k] presses on the plus
    icon of the food bring it to [q + k] and [k] presses on the minus icon
    to [max 1 (q - k)], with the food, the ledger and the flag untouched;
    plus followed by minus gives back the state. *)
Theorem repeated_presses_on_the_food
    (formatValue : float → string) (k : nat) (st : State) :
  1 ≤ foodQuantity st →
  run formatValue (replicate k IncrementFood) st
  = Ok {| food := food st; extras := extras st; isFavorite := isFavorite st;
          foodQuantity := foodQuantity st + Z.of_nat k |}
  ∧ run formatValue (replicate k DecrementFood) st
    = Ok {| food := food st; extras := extras st; isFavorite := isFavorite st;
            foodQuantity := Z.max 1 (foodQuantity st - Z.of_nat k) |}
  ∧ run formatValue [IncrementFood; DecrementFood] st = Ok st.
Proof.
  intros Hq. split; [apply run_increment_food|].
  split; [by apply run_decrement_food|].
  cbn [run]. unfold step, dispatch, handleDecrementFood. simpl.
  destruct (Z.gtb_spec (foodQuantity st + 1) 1); [|lia]. simpl.
  destruct st as [f l fav q]. simpl. do 2 f_equal. lia.
Qed.

Lemma repeated_presses_on_the_food_witness :
  1 ≤ foodQuantity burger_loaded
  ∧ run fraction_text (replicate 3 DecrementFood) burger_loaded
    = Ok burger_loaded.
Proof.
  assert (1 ≤ foodQuantity burger_loaded) as H by (simpl; lia).
  split; [exact H|].
  apply (repeated_presses_on_the_food fraction_text 3 burger_loaded H).
Defined.

(** ** The favorites check *)

(** X10.  When the list of favorites arrives, the flag is set, whatever it
    was, to whether some favorite has the id of the food that the effect
    captured, the food of the render that sent the request and not the one
    the cell holds by now.  A request sent while the cell held the empty
    object clears the flag even when it settles after a load, and even when
    the loaded food is among the favorites.  The other cells are not
    written, and nothing is written when the request fails. *)
Theorem check_favorite_sets_membership
    (formatValue : float → string) (captured : option Food.t)
    (data : list Food.t) (st : State) :
  (∃ st', step formatValue (CheckFavorite captured (Some data)) st = Ok st'
     ∧ (isFavorite st' = true
        ↔ ∃ f, captured = Some f ∧ Food.id f ∈ map Food.id data)
     ∧ food st' = food st
     ∧ extras st' = extras st
     ∧ foodQuantity st' = foodQuantity st)
  ∧ (∃ st', step formatValue (CheckFavorite None (Some data)) st = Ok st'
       ∧ isFavorite st' = false)
  ∧ step formatValue (CheckFavorite captured None) st = Ok st.
Proof.
  split; [|split; [|reflexivity]].
  - eexists. split; [reflexivity|]. simpl. split; [|by repeat split].
    rewrite Z.ltb_lt. split.
    + intros Hlen.
      destruct (filter _ data) as [|x l] eqn:Hfilter; [simpl in Hlen; lia|].
      assert (x ∈ filter (λ item, same_id captured item = true) data) as Hx
        by (rewrite Hfilter; constructor).
      apply list_elem_of_filter in Hx as [Hsame Hx].
      unfold same_id in Hsame. destruct captured as [f|]; [|discriminate].
      exists f. split; [reflexivity|]. apply Z.eqb_eq in Hsame.
      rewrite <- Hsame. by apply list_elem_of_fmap_2.
    + intros (f & -> & Hin). apply list_elem_of_fmap in Hin as (x & Hid & Hx).
      assert (x ∈ filter (λ item, same_id (Some f) item = true) data) as Hx'.
      { apply list_elem_of_filter. split; [|exact Hx].
        simpl. apply Z.eqb_eq. congruence. }
      destruct (filter _ data); [by apply elem_of_nil in Hx'|]. simpl. lia.
  - eexists. split; [reflexivity|]. simpl. apply Z.ltb_ge.
    destruct (filter _ data) as [|x l] eqn:Hfilter; [simpl; lia|].
    assert (x ∈ x :: l) as Hx by constructor. rewrite <- Hfilter in Hx.
    apply list_elem_of_filter in Hx as [Hsame _]. discriminate.
Qed.

(** ** The ledger and the food *)

Section ledger_invariant.
Variable formatValue : float → string.

Lemma ledger_of_press id p st st' :
  ledger_of (food st) (extras st) →
  step formatValue (press_event id p) st = Ok st' →
  ledger_of (food st') (extras st').
Proof.
  intros [Hfood Hnonneg] Hstep.
  destruct (step_press_found formatValue id p st st' Hstep)
    as (n & e & Hidx & Hn & _).
  rewrite (step_press formatValue id p st n e Hidx Hn) in Hstep.
  injection Hstep as <-. simpl. split.
  - destruct (food st) as [f|].
    + destruct Hfood as (Hi & Hna & Hv).
      rewrite !map_insert_with_quantity by (reflexivity || exact Hn). auto.
    + rewrite Hfood in Hn. discriminate.
  - apply Forall_insert; [exact Hnonneg|]. simpl.
    rewrite Forall_forall in Hnonneg.
    specialize (Hnonneg e (list_elem_of_lookup_2 _ _ _ Hn)).
    destruct p; simpl; [lia|]. destruct (Z.gtb_spec (Extra.quantity e) 0); lia.
Qed.

Lemma ledger_of_step ev st st' :
  ledger_of (food st) (extras st) → step formatValue ev st = Ok st' →
  ledger_of (food st') (extras st').
Proof.
  intros Hinv Hstep. destruct ev.
  - destruct r as [f|]; unfold step in Hstep; simpl in Hstep;
      injection Hstep as <-; [|exact Hinv].
    simpl. split.
    + by rewrite <- !list_fmap_compose.
    + apply Forall_fmap, Forall_true. intros e. simpl. lia.
  - destruct r; unfold step in Hstep; simpl in Hstep;
      injection Hstep as <-; exact Hinv.
  - exact (ledger_of_press id Inc st st' Hinv Hstep).
  - exact (ledger_of_press id Dec st st' Hinv Hstep).
  - unfold step in Hstep. simpl in Hstep. injection Hstep as <-. exact Hinv.
  - unfold step, dispatch, handleDecrementFood in Hstep.
    destruct (foodQuantity st >? 1); simpl in Hstep;
      injection Hstep as <-; exact Hinv.
  - destruct r; unfold step in Hstep; simpl in Hstep;
      injection Hstep as <-; exact Hinv.
  - unfold step in Hstep. simpl in Hstep. injection Hstep as <-. exact Hinv.
Qed.

Lemma reachable_ledger_of st :
  reachable formatValue st → ledger_of (food st) (extras st).
Proof.
  induction 1 as [|ev st st' _ IH Hstep].
  - split; [reflexivity | constructor].
  - exact (ledger_of_step ev st st' IH Hstep).
Qed.
End ledger_invariant.

(** A handler makes one setter call at most, the load that succeeds apart,
    which makes two. *)
Lemma dispatch_calls (formatValue : float → string) ev st us :
  dispatch formatValue ev st = Ok us →
  (length us ≤ 1)%nat
  ∨ ∃ id f, ev = LoadFood id (Some f)
      ∧ us = [ setFood (Food.with_formattedPrice
                          (formatValue (Food.price f)) f);
               setExtras (λ _, Ok (map (Extra.with_quantity 0) (Food.extras f))) ].
Proof.
  intros H. destruct ev; simpl in H.
  - destruct r as [f|]; injection H as <-; [right; eauto | left; simpl; lia].
  - destruct r; injection H as <-; left; simpl; lia.
  - injection H as <-. left. simpl. lia.
  - unfold handleDecrementExtra in H.
    destruct (defined _) as [current|]; simpl in H; [|discriminate].
    destruct (Extra.quantity current >? 0); injection H as <-; left; simpl; lia.
  - injection H as <-. left. simpl. lia.
  - injection H as <-. left. unfold handleDecrementFood.
    destruct (foodQuantity st >? 1); simpl; lia.
  - destruct r; injection H as <-; left; simpl; lia.
  - injection H as <-. left. simpl. lia.
Qed.

(** A state on the screen is a state in which an event has left the
    component, or the state before an event, or the state between the two
    setter calls of a load: the new food with the ledger of before. *)
Lemma on_screen_cases (formatValue : float → string) st' :
  on_screen formatValue st' →
  reachable formatValue st'
  ∨ ∃ st f, reachable formatValue st
      ∧ st' = {| food := Some f; extras := extras st;
                 isFavorite := isFavorite st; foodQuantity := foodQuantity st |}.
Proof.
  intros [ev st done rest st1 Hreach Hdispatch Hcommit].
  destruct (dispatch_calls formatValue ev st _ Hdispatch)
    as [Hlen | (id & f & -> & Hus)].
  - destruct done as [|u done].
    + injection Hcommit as <-. by left.
    + destruct done, rest; simpl in Hlen; try lia.
      left. apply (reachable_step formatValue ev st st1 Hreach).
      unfold step. by rewrite Hdispatch.
  - destruct done as [|u1 [|u2 done]].
    + injection Hcommit as <-. by left.
    + injection Hus as -> _. simpl in Hcommit. injection Hcommit as <-.
      right. eauto.
    + assert (rest = []) as ->.
      { apply (f_equal length) in Hus. simpl in Hus.
        rewrite length_app in Hus. destruct rest; [done | simpl in Hus; lia]. }
      rewrite app_nil_r in Hdispatch.
      left. apply (reachable_step formatValue (LoadFood id (Some f)) st st1 Hreach).
      unfold step. by rewrite Hdispatch.
Qed.

(** X11.  In every state that the screen renders, the render between the
    two setter calls of a load included, no quantity of the ledger is
    negative, and the ledger is empty while the [food] cell holds the empty
    object.  In the states in which a handled event leaves the component,
    the ledger is moreover that of the food in the cell: it lists the extras
    of the food, in their order, with their ids, names and values.  Between
    [setFood] and [setExtras] it is still the ledger of before. *)
Theorem ledger_follows_food
    (formatValue : float → string) (st : State) :
  on_screen formatValue st →
  Forall (λ e, 0 ≤ Extra.quantity e) (extras st)
  ∧ (food st = None → extras st = [])
  ∧ (reachable formatValue st →
     match food st with
     | Some f =>
         map Extra.id (extras st) = map Extra.id (Food.extras f)
         ∧ map Extra.name (extras st) = map Extra.name (Food.extras f)
         ∧ map Extra.value (extras st) = map Extra.value (Food.extras f)
     | None => extras st = []
     end).
Proof.
  intros Hscreen. split; [|split].
  - destruct (on_screen_cases _ _ Hscreen) as [Hreach | (st0 & f & Hreach & ->)];
      by destruct (reachable_ledger_of _ _ Hreach) as [_ Hq].
  - destruct (on_screen_cases _ _ Hscreen) as [Hreach | (st0 & f & Hreach & ->)];
      [|discriminate].
    intros Hfood. destruct (reachable_ledger_of _ _ Hreach) as [Hledger _].
    by rewrite Hfood in Hledger.
  - intros Hreach. by destruct (reachable_ledger_of _ _ Hreach) as [Hledger _].
Qed.

(** The render between the setter calls of a load of [burger] into the
    screen that shows [cheeseburger_ordered]. *)
Lemma ledger_follows_food_witness :
  on_screen fraction_text
    {| food := Some (Food.with_formattedPrice (fraction_text 10%float) burger);
       extras := [bacon; cheese]; isFavorite := false; foodQuantity := 1 |}
  ∧ Forall (λ e, 0 ≤ Extra.quantity e) [bacon; cheese].
Proof.
  assert (reachable fraction_text cheeseburger_ordered) as Hreach.
  { apply (reachable_step fraction_text (IncrementExtra 12)
             {| food := food cheeseburger_ordered;
                extras := [bacon; Extra.with_quantity 1 cheese];
                isFavorite := false; foodQuantity := 1 |});
      [|reflexivity].
    apply (reachable_step fraction_text (IncrementExtra 12)
             {| food := food cheeseburger_ordered;
                extras := [bacon; Extra.with_quantity 0 cheese];
                isFavorite := false; foodQuantity := 1 |});
      [|reflexivity].
    apply (reachable_step fraction_text (LoadFood 2 (Some cheeseburger)) initial);
      [apply reachable_initial | reflexivity]. }
  assert (on_screen fraction_text
            {| food := Some (Food.with_formattedPrice
                               (fraction_text 10%float) burger);
               extras := [bacon; cheese]; isFavorite := false;
               foodQuantity := 1 |}) as Hscreen.
  { apply (on_screen_after fraction_text (LoadFood 1 (Some burger))
             cheeseburger_ordered
             [ setFood (Food.with_formattedPrice (fraction_text 10%float) burger) ]
             [ setExtras (λ _, Ok (map (Extra.with_quantity 0)
                                       (Food.extras burger))) ]);
      [exact Hreach | reflexivity | reflexivity]. }
  split; [exact Hscreen|].
  apply (ledger_follows_food fraction_text _ Hscreen).
Defined.

(** ** Before the food is loaded *)

(** X15.  As long as the [food] cell holds the empty object, in every state
    that the rendering component reaches, [food.price] is [undefined]: the
    text under [cart-total] is [formatValue(NaN)], whatever the food
    quantity, the ledger is empty, and no extra icon is rendered. *)
Theorem total_is_nan_before_load
    (formatValue : float → string) (rt : Runtime) :
  rt_reachable formatValue rt → food (cells rt) = None →
  shown rt = formatValue nan
  ∧ extras (cells rt) = []
  ∧ buttons (cells rt) = [DecrementFood; IncrementFood].
Proof.
  intros Hreach Hfood.
  destruct (rt_reachable_rendered _ _ Hreach) as (_ & Hshown & _).
  destruct (reachable_ledger_of _ _ (rt_reachable_cells _ _ Hreach))
    as [Hledger _].
  rewrite Hfood in Hledger, Hshown. rewrite Hledger in Hshown.
  split; [|split; [exact Hledger | unfold buttons; by rewrite Hledger]].
  rewrite Hshown. unfold cartTotal, cartTotal_number. simpl.
  by rewrite nan_mul.
Qed.

Lemma total_is_nan_before_load_witness :
  rt_reachable fraction_text (mount fraction_text)
  ∧ shown (mount fraction_text) = "NaN".
Proof.
  split; [apply rt_reachable_mount|].
  apply (total_is_nan_before_load fraction_text (mount fraction_text)
           (rt_reachable_mount fraction_text) eq_refl).
Defined.

(** ** What a toggle sends *)

(** X16.  Once a food has been loaded, a toggle from a clear flag posts the
    food as the [food] cell holds it: with the id and the price as fetched,
    with the [formattedPrice] that the load added, and with the extras as
    fetched, not the ledger.  A toggle from a set flag deletes
    [favorites/id] with the id of the food. *)
Theorem toggle_sends_the_stored_food
    (formatValue : float → string) (id : Z) (foodFromApi : Food.t)
    (st : State) :
  ∃ st' body,
    step formatValue (LoadFood id (Some foodFromApi)) st = Ok st'
    ∧ request (toggleFavorite false (food st')) = POST_favorites body
    ∧ body !! "id" = Some (FNumber (number_of_Z (Food.id foodFromApi)))
    ∧ body !! "price" = Some (FNumber (Food.price foodFromApi))
    ∧ body !! "formattedPrice"
      = Some (FString (formatValue (Food.price foodFromApi)))
    ∧ body !! "extras" = Some (FExtras (Food.extras foodFromApi))
    ∧ request (toggleFavorite true (food st'))
      = DELETE_favorite (Some (Food.id foodFromApi)).
Proof.
  eexists _, _. split; [reflexivity|]. split; [reflexivity|].
  unfold food_cell_object, food_object. simpl.
  do 4 (split; [by simplify_map_eq|]). reflexivity.
Qed.
